(** * Verification of music_sheet_to_pianoroll.py

    Shallow embedding of the two functions of the script:
    [music21_stream_to_piano_roll] (the flattener) and
    [save_piano_roll_fig] (the renderer).  Pitches are Python ints ([Z]).
    Offsets and durations are music21 [Fraction]/[float] values: the
    flattener is modelled twice, over rationals ([Q], the exact reading,
    where every [+] is the exact sum of two [Fraction]s) and over Python
    numbers ([pynum]: a [Fraction] or an IEEE-754 double, with Python's
    mixed arithmetic); the two agree on [Fraction] inputs
    ([FlattenPy.to_piano_roll_py_frac]).  The renderer's side effects (the
    caller's list in the Python heap, the file system, stdout) are
    threaded through an explicit state. *)

From Stdlib Require Import ZArith QArith List Ascii String Bool Lia.
From Stdlib Require Import Sorting.Sorted Sorting.Permutation.
From Stdlib Require Floats.
Import ListNotations.
Open Scope Z_scope.

(** ** Python built-ins used by the script *)
Module Py.

(** Python exceptions that can be raised on the paths of the script
    (the last three are the [OSError]s of opening a file for writing). *)
Inductive exn :=
| ValueError
| IndexError
| FileNotFoundError
| NotADirectoryError
| IsADirectoryError.

(** [lst[i]] on a Python list: negative indices count from the end,
    anything else out of range raises [IndexError] ([None]). *)
Definition getitem {A} (l : list A) (i : Z) : option A :=
  let n := Z.of_nat (List.length l) in
  if (0 <=? i) && (i <? n) then nth_error l (Z.to_nat i)
  else if (- n <=? i) && (i <? 0) then nth_error l (Z.to_nat (n + i))
  else None.

(** [min(lst)] and [max(lst)] on a list of ints: [ValueError] ([None]) on
    an empty list, otherwise the first extremal element. *)
Definition min (l : list Z) : option Z :=
  match l with
  | [] => None
  | x :: r => Some (fold_left (fun m y => if y <? m then y else m) r x)
  end.

Definition max (l : list Z) : option Z :=
  match l with
  | [] => None
  | x :: r => Some (fold_left (fun m y => if m <? y then y else m) r x)
  end.

(** [lst.index(x)]: position of the first occurrence, [ValueError] if
    absent. *)
Fixpoint index (l : list string) (x : string) : option nat :=
  match l with
  | [] => None
  | y :: r => if String.eqb y x then Some 0%nat
              else option_map S (index r x)
  end.

(** [range(a, b, step)] for a positive [step]. *)
Fixpoint range_aux (a : Z) (step : Z) (fuel : nat) : list Z :=
  match fuel with
  | O => []
  | S f => a :: range_aux (a + step) step f
  end.

Definition range (a b step : Z) : list Z :=
  range_aux a step (Z.to_nat ((b - a + step - 1) / step)).

(** [lst.sort(key=k)] and [sorted(xs, key=k)]: CPython's sort is stable
    (guaranteed by the language reference) and only compares keys with
    [<]; it is modelled by a stable insertion sort driven by the same
    [<].  An element is inserted before the first element whose key is
    not smaller than its own, so earlier input elements stay in front of
    later ones with an equal key. *)
Section Sort.
Context {A K : Type} (lt : K -> K -> bool) (key : A -> K).

Fixpoint insert (x : A) (l : list A) : list A :=
  match l with
  | [] => [x]
  | y :: r => if lt (key y) (key x) then y :: insert x r else x :: y :: r
  end.

Fixpoint sort (l : list A) : list A :=
  match l with
  | [] => []
  | x :: r => insert x (sort r)
  end.
End Sort.

End Py.

(** ** The flattener: [music21_stream_to_piano_roll] *)

(** A note event [(pitch, start, end)]. *)
Definition event : Type := (Z * Q * Q)%type.

Definition ev_pitch (e : event) : Z := fst (fst e).
Definition ev_start (e : event) : Q := snd (fst e).
Definition ev_end (e : event) : Q := snd e.

(** An element of [music_stream.flatten()], carrying its offset in the
    flattened stream ([getOffsetBySite(flat_stream)]) and its
    [quarterLength].  [Note] and [Chord] are the two classes the loop
    tests; [OtherNotRest] stands for the other members of [.notes]
    (e.g. [Unpitched], [PercussionChord]); [NonNote] for everything
    [.notes] filters out (rests, clefs, key and time signatures, ...). *)
Inductive element :=
| Note (midi : Z) (offset : Q) (quarterLength : Q)
| Chord (midis : list Z) (offset : Q) (quarterLength : Q)
| OtherNotRest (offset : Q) (quarterLength : Q)
| NonNote.

(** [flat_stream.notes]: the [NotRest] elements. *)
Definition is_not_rest (el : element) : bool :=
  match el with
  | NonNote => false
  | _ => true
  end.

Definition notes_of (flat_stream : list element) : list element :=
  filter is_not_rest flat_stream.

(** Body of the [for element in flat_stream.notes] loop: the tuples
    appended to [notes] for one element, in the exact reading: [+] is the
    exact sum, which is what Python computes when the offset and the
    [quarterLength] are both [Fraction]s.  With a [float] among them
    Python rounds the sum; that case is [element_tuples_py] below. *)
Definition element_tuples (el : element) : list event :=
  match el with
  | Note midi off ql =>
      let absolute_start := off in
      let absolute_end := (absolute_start + ql)%Q in
      [(midi, absolute_start, absolute_end)]
  | Chord midis off ql =>
      let absolute_start := off in
      let absolute_end := (absolute_start + ql)%Q in
      map (fun p => (p, absolute_start, absolute_end)) midis
  | _ => []
  end.

Fixpoint stream_loop (els : list element) (notes : list event) : list event :=
  match els with
  | [] => notes
  | el :: r => stream_loop r (notes ++ element_tuples el)
  end.

(** [music21_stream_to_piano_roll], applied to the already flattened
    stream. *)
Definition music21_stream_to_piano_roll (flat_stream : list element)
  : list event :=
  stream_loop (notes_of flat_stream) [].

(** ** The flattener over Python numbers *)

(** music21 stores an offset or a [quarterLength] as a [float] when it is
    a binary fraction and as a [Fraction] otherwise ([opFrac]): [0.0] (a
    grace note) or [1.5] are floats, [13/3] (after triplets) is a
    [Fraction].  A Python number of the flattener is one of the two. *)
Inductive pynum :=
| Frac (q : Q)
| Flt (f : PrimFloat.float).

(** [float(n)] for an int: exact when [|n| <= 2^53]. *)
Definition Z_to_float (z : Z) : PrimFloat.float :=
  let f := PrimFloat.of_uint63 (Uint63.of_Z (Z.abs z)) in
  if z <? 0 then PrimFloat.opp f else f.

(** [float(frac)], i.e. [n / d] on ints, correctly rounded.  When [|n|]
    and [d] are at most [2^53] both are exact doubles and the IEEE
    division rounds [n / d] correctly; larger numerators or denominators
    (music21 limits denominators to 65535) are outside the model. *)
Definition float_of_fraction (q : Q) : option PrimFloat.float :=
  if (Z.abs (Qnum q) <=? 2 ^ 53) && (Zpos (Qden q) <=? 2 ^ 53)
  then Some (PrimFloat.div (Z_to_float (Qnum q)) (Z_to_float (Zpos (Qden q))))
  else None.



(** Python's [a + b]: exact on two [Fraction]s, the double addition on
    two floats, and [float(a) + b] or [a + float(b)] on a [Fraction] and a
    float ([Fraction._operator_fallbacks]). *)
Definition py_add (a b : pynum) : option pynum :=
  match a, b with
  | Frac x, Frac y => Some (Frac (x + y)%Q)
  | Flt x, Flt y => Some (Flt (PrimFloat.add x y))
  | Frac x, Flt y =>
      option_map (fun fx => Flt (PrimFloat.add fx y)) (float_of_fraction x)
  | Flt x, Frac y =>
      option_map (fun fy => Flt (PrimFloat.add x fy)) (float_of_fraction y)
  end.


(** The elements of the flattened stream, with Python-number timing. *)
Inductive element_py :=
| NoteP (midi : Z) (offset : pynum) (quarterLength : pynum)
| ChordP (midis : list Z) (offset : pynum) (quarterLength : pynum)
| OtherNotRestP (offset : pynum) (quarterLength : pynum)
| NonNoteP.

Definition event_py : Type := (Z * pynum * pynum)%type.

Definition is_not_rest_py (el : element_py) : bool :=
  match el with
  | NonNoteP => false
  | _ => true
  end.

(** The loop body; [None] only outside the modelled range of
    [float_of_fraction]. *)
Definition element_tuples_py (el : element_py) : option (list event_py) :=
  match el with
  | NoteP midi off ql =>
      match py_add off ql with
      | Some absolute_end => Some [(midi, off, absolute_end)]
      | None => None
      end
  | ChordP midis off ql =>
      match py_add off ql with
      | Some absolute_end => Some (map (fun p => (p, off, absolute_end)) midis)
      | None => None
      end
  | _ => Some []
  end.

Fixpoint stream_loop_py (els : list element_py) (notes : list event_py)
  : option (list event_py) :=
  match els with
  | [] => Some notes
  | el :: r =>
      match element_tuples_py el with
      | Some ts => stream_loop_py r (notes ++ ts)
      | None => None
      end
  end.

Definition music21_stream_to_piano_roll_py (flat_stream : list element_py)
  : option (list event_py) :=
  stream_loop_py (filter is_not_rest_py flat_stream) [].

(** A stream of the exact reading as a stream of [Fraction]s. *)
Definition element_of_q (el : element) : element_py :=
  match el with
  | Note m off ql => NoteP m (Frac off) (Frac ql)
  | Chord ms off ql => ChordP ms (Frac off) (Frac ql)
  | OtherNotRest off ql => OtherNotRestP (Frac off) (Frac ql)
  | NonNote => NonNoteP
  end.

Definition event_of_q (e : event) : event_py :=
  let '(p, s, t) := e in (p, Frac s, Frac t).

(** ** The renderer: [save_piano_roll_fig] *)

Definition GRAPH_COLORS : list string :=
  ["red"; "green"; "blue"; "yellow"; "purple"; "orange"; "cyan"; "magenta";
   "lime"; "pink"; "teal"; "lavender"]%string.

Definition PITCH_CLASSES : list string :=
  ["C"; "C#/Db"; "D"; "D#/Eb"; "E"; "F"; "F#/Gb"; "G"; "G#/Ab"; "A";
   "A#/Bb"; "B"]%string.

(** Outcome of a Python call: it returns, or an exception escapes. *)
Inductive outcome :=
| Returned
| Raised (e : Py.exn).

(** A small error monad for the straight-line parts of the body. *)
Definition res (A : Type) : Type := (Py.exn + A)%type.

Definition raise_opt {A} (e : Py.exn) (o : option A) : res A :=
  match o with Some a => inr a | None => inl e end.

Definition bind {A B} (m : res A) (f : A -> res B) : res B :=
  match m with inl e => inl e | inr a => f a end.

Notation "x <- m ;; k" := (bind m (fun x => k))
  (at level 61, m at next level, right associativity).

(** [ax.plot([start, end], [pitch, pitch], color=c)]. *)
Record line := mkLine { l_xs : Q * Q; l_ys : Z * Z; l_color : string }.

(** The observable state of the [Axes]/[Figure] the function builds:
    limits, plotted lines, y ticks with their labels (the f-string
    [f'C{i // 12 - 1}-({i})'] is kept as its two ints) and the legend
    handles ([Line2D] with its color and label), if a legend was added.
    The title and axis labels play no role in the claims and are left
    out. *)
Record figure := mkFigure {
  f_xlim : option (Q * Q);
  f_ylim : option (Z * Z);
  f_lines : list line;
  f_yticks : list Z;
  f_yticklabels : list (Z * Z);
  f_legend : option (list (string * string))
}.

Definition empty_figure : figure := mkFigure None None [] [] [] None.

(** The world the function runs in: the Python heap of list objects
    (a list argument is passed by reference), the directories that
    exist, the files written, the lines printed, and the figure the
    last call built (until [plt.close(fig)]). *)
Definition loc := nat.

Record world := mkWorld {
  heap : loc -> list event;
  dirs : list string;
  files : list string;
  stdout : list string;
  last_figure : option figure
}.

Definition heap_set (h : loc -> list event) (r : loc) (v : list event)
  : loc -> list event :=
  fun r' => if Nat.eqb r' r then v else h r'.

(** Python dict with string keys: an association list in insertion
    order; [d[k] = v] overwrites in place or appends. *)
Definition dict := list (string * string).

Definition dict_set (d : dict) (k v : string) : dict :=
  if existsb (fun kv => String.eqb (fst kv) k) d
  then map (fun kv => if String.eqb (fst kv) k then (k, v) else kv) d
  else d ++ [(k, v)].

(** [lambda n: n[2]] compared with [<]. *)
Definition qltb (a b : Q) : bool := negb (Qle_bool b a).

Definition sort_by_end (l : list event) : list event :=
  Py.sort qltb ev_end l.

(** One iteration of [for pitch, start, end in piano_roll]. *)
Definition plot_event (acc : list line * dict) (e : event)
  : res (list line * dict) :=
  let '(pitch, start, end_) := e in
  let pc := pitch mod 12 in
  c <- raise_opt Py.IndexError (Py.getitem GRAPH_COLORS pc) ;;
  name <- raise_opt Py.IndexError (Py.getitem PITCH_CLASSES pc) ;;
  c' <- raise_opt Py.IndexError (Py.getitem GRAPH_COLORS pc) ;;
  inr (fst acc ++ [mkLine (start, end_) (pitch, pitch) c],
       dict_set (snd acc) name c').

Fixpoint plot_loop (l : list event) (acc : list line * dict)
  : res (list line * dict) :=
  match l with
  | [] => inr acc
  | e :: r => acc' <- plot_event acc e ;; plot_loop r acc'
  end.

(** Decorate each item with [PITCH_CLASSES.index(item[0])]. *)
Fixpoint legend_keys (d : dict) : res (list (nat * (string * string))) :=
  match d with
  | [] => inr []
  | kv :: r =>
      i <- raise_opt Py.ValueError (Py.index PITCH_CLASSES (fst kv)) ;;
      rest <- legend_keys r ;;
      inr ((i, kv) :: rest)
  end.

(** [dict(sorted(legend.items(), key=...))], then the handles
    [Line2D(color=colors_to_print[i], label=pitch_classes_to_print[i])]. *)
Definition legend_handles (legend : dict) : res (list (string * string)) :=
  keyed <- legend_keys legend ;;
  let sorted_items := map snd (Py.sort Nat.ltb fst keyed) in
  let legend' := fold_left (fun d kv => dict_set d (fst kv) (snd kv))
                   sorted_items [] in
  let colors_to_print := map snd legend' in
  let pitch_classes_to_print := map fst legend' in
  inr (combine colors_to_print pitch_classes_to_print).

(** Lines 26-29: the vertical bounds. *)
Definition y_bounds (piano_roll : list event) : res (Z * Z) :=
  min_pitch <- raise_opt Py.ValueError (Py.min (map ev_pitch piano_roll)) ;;
  max_pitch <- raise_opt Py.ValueError (Py.max (map ev_pitch piano_roll)) ;;
  let min_y := min_pitch - (min_pitch mod 12) in
  let max_y := max_pitch + 13 - (max_pitch mod 12) in
  inr (min_y, max_y).

(** Lines 37-62, run on the list after the in-place sort. *)
Definition draw (piano_roll : list event) (min_y max_y : Z)
    (show_legend : bool) : res figure :=
  acc <- plot_loop piano_roll ([], []) ;;
  let '(lines, legend) := acc in
  xl <- (if (0 <? List.length piano_roll)%nat
         then last_ <- raise_opt Py.IndexError (Py.getitem piano_roll (-1)) ;;
              inr (0%Q, (ev_end last_ + (1 # 10))%Q)
         else inr (0%Q, 1%Q)) ;;
  let ticks := Py.range min_y max_y 12 in
  let labels := map (fun i => (i / 12 - 1, i)) ticks in
  hs <- (if show_legend
         then h <- legend_handles legend ;; inr (Some h)
         else inr None) ;;
  inr (mkFigure (Some xl) (Some (min_y, max_y)) lines ticks labels hs).

Definition piano_rolls_dir (output_path : string) : string :=
  (output_path ++ "/piano_rolls")%string.

Definition figure_file (path output_path : string) : string :=
  (piano_rolls_dir output_path ++ "/" ++ path ++ ".png")%string.

(** *** The file system seen by [fig.savefig] *)

(** [p.split('/')]. *)
Fixpoint split_slash (s : string) (cur : string) : list string :=
  match s with
  | EmptyString => [cur]
  | String c r =>
      if Ascii.eqb c "/"%char then cur :: split_slash r EmptyString
      else split_slash r (String.append cur (String c EmptyString))
  end.

Definition path_split (p : string) : list string := split_slash p EmptyString.

Definition is_absolute (p : string) : bool :=
  match p with
  | String c _ => Ascii.eqb c "/"%char
  | EmptyString => false
  end.

(** A path as the kernel resolves it: absolute or relative to the
    working directory, with its components innermost first. *)
Definition rpath : Type := (bool * list string)%type.

(** One component: an empty one and ["."] stay, [".."] goes up (the root
    is its own parent; above the working directory the [".."] are
    kept). *)
Definition step (abs : bool) (cur : list string) (c : string) : list string :=
  let dotdot := ".."%string in
  if String.eqb c EmptyString || String.eqb c "."%string then cur
  else if String.eqb c dotdot then
    match cur with
    | [] => if abs then [] else [dotdot]
    | d :: r => if String.eqb d dotdot then dotdot :: cur else r
    end
  else c :: cur.

Definition resolve (p : string) : rpath :=
  (is_absolute p, fold_left (step (is_absolute p)) (path_split p) []).

Fixpoint comps_eqb (a b : list string) : bool :=
  match a, b with
  | [], [] => true
  | x :: a', y :: b' => String.eqb x y && comps_eqb a' b'
  | _, _ => false
  end.

Definition rpath_eqb (a b : rpath) : bool :=
  Bool.eqb (fst a) (fst b) && comps_eqb (snd a) (snd b).

(** A directory exists when it is listed in the world, or when it is the
    root, the working directory or one of its ancestors. *)
Definition is_dir (dirs : list string) (p : rpath) : bool :=
  forallb (String.eqb ".."%string) (snd p)
  || existsb (fun d => rpath_eqb (resolve d) p) dirs.

Definition is_file (files : list string) (p : rpath) : bool :=
  existsb (fun f => rpath_eqb (resolve f) p) files.

(** Path lookup of the directories leading to the file, one component at
    a time: a missing component raises [FileNotFoundError] ([ENOENT]), a
    regular file in its place [NotADirectoryError] ([ENOTDIR]). *)
Fixpoint walk_dirs (dirs files : list string) (abs : bool)
    (cs : list string) (cur : list string) : res (list string) :=
  match cs with
  | [] => inr cur
  | c :: r =>
      if String.eqb c EmptyString || String.eqb c "."%string
         || String.eqb c ".."%string
      then walk_dirs dirs files abs r (step abs cur c)
      else if is_dir dirs (abs, c :: cur)
      then walk_dirs dirs files abs r (c :: cur)
      else if is_file files (abs, c :: cur) then inl Py.NotADirectoryError
      else inl Py.FileNotFoundError
  end.

(** [fig.savefig(fname)]: matplotlib (through PIL) opens [fname] for
    writing, [open(fname, "w+b")].  After the lookup of its directory, a
    directory at the final name raises [IsADirectoryError] ([EISDIR]);
    otherwise the file is created, or overwritten when it exists.  The
    result is the new list of files.  There are no symbolic links and no
    permissions in the model (every directory is writable), so no other
    [OSError] is raised. *)
Definition savefig (file : string) (dirs files : list string)
  : res (list string) :=
  let abs := is_absolute file in
  let cs := path_split file in
  cur <- walk_dirs dirs files abs (removelast cs) [] ;;
  let name := last cs EmptyString in
  if String.eqb name EmptyString || String.eqb name "."%string
     || String.eqb name ".."%string
  then inl Py.IsADirectoryError
  else if is_dir dirs (abs, name :: cur) then inl Py.IsADirectoryError
  else if is_file files (abs, name :: cur) then inr files
  else inr (file :: files).

Definition DIR_MISSING_MSG : string :=
  "The directory does not exist for saving the piano roll figure.".

(** Lines 63-67, [try: fig.savefig(...) except FileNotFoundError:
    print(...)]: the files and printed lines after the block, and whether
    an exception escapes it. *)
Definition try_savefig (file : string) (dirs files stdout : list string)
  : list string * list string * outcome :=
  match savefig file dirs files with
  | inr files' => (files', stdout, Returned)
  | inl Py.FileNotFoundError => (files, stdout ++ [DIR_MISSING_MSG], Returned)
  | inl e => (files, stdout, Raised e)
  end.

(** [save_piano_roll_fig(piano_roll, path, output_path, show_legend)],
    with [piano_roll] the list object at location [r]. *)
Definition save_piano_roll_fig (r : loc) (path output_path : string)
    (show_legend : bool) (w : world) : world * outcome :=
  let piano_roll := heap w r in
  match y_bounds piano_roll with
  | inl e => (w, Raised e)
  | inr (min_y, max_y) =>
      (* piano_roll.sort(key=lambda n: n[2], reverse=False) *)
      let sorted := sort_by_end piano_roll in
      let w1 := mkWorld (heap_set (heap w) r sorted) (dirs w) (files w)
                        (stdout w) (last_figure w) in
      match draw sorted min_y max_y show_legend with
      | inl e => (w1, Raised e)
      | inr fig =>
          let w2 := mkWorld (heap w1) (dirs w1) (files w1) (stdout w1)
                            (Some fig) in
          let t := try_savefig (figure_file path output_path)
                     (dirs w2) (files w2) (stdout w2) in
          (mkWorld (heap w2) (dirs w2) (fst (fst t)) (snd (fst t))
                   (last_figure w2), snd t)
      end
  end.

Definition w0 : world :=
  mkWorld (fun _ => []) ["./piano_rolls"]%string [] [] None.

Definition roll_ex : list event :=
  [(72, 0%Q, 2%Q); (60, 0%Q, 1%Q); (64, 1#2, 1%Q); (61, 0%Q, 1%Q)].

Example save_ex :
  let '(w, o) := save_piano_roll_fig 0%nat "x" "." true
                   (mkWorld (heap_set (heap w0) 0%nat roll_ex) (dirs w0) []
                            [] None) in
  (o, heap w 0%nat, files w, option_map f_legend (last_figure w),
   option_map f_ylim (last_figure w)) = (Returned, [(60,0%Q,1%Q);(64,1#2,1%Q);(61,0%Q,1%Q);(72,0%Q,2%Q)],
   ["./piano_rolls/x.png"]%string, Some (Some [("red","C");("green","C#/Db");("purple","E")]%string),
   Some (Some (60, 85))).
Proof. vm_compute. reflexivity. Qed.

(** The color and pitch-class name the loop body reads for a pitch,
    once the indexing is known to be in bounds. *)
Definition color_of (p : Z) : string :=
  nth (Z.to_nat (p mod 12)) GRAPH_COLORS ""%string.

Definition class_of (p : Z) : string :=
  nth (Z.to_nat (p mod 12)) PITCH_CLASSES ""%string.

Definition line_of (e : event) : line :=
  mkLine (ev_start e, ev_end e) (ev_pitch e, ev_pitch e) (color_of (ev_pitch e)).

Definition legend_step (d : dict) (e : event) : dict :=
  dict_set d (class_of (ev_pitch e)) (color_of (ev_pitch e)).

(** The legend the spec describes: one [(color, name)] entry per pitch
    class present in the roll, in the order of [PITCH_CLASSES]. *)
Definition class_present (roll : list event) (i : nat) : bool :=
  existsb (fun e => Nat.eqb (Z.to_nat (ev_pitch e mod 12)) i) roll.

Definition expected_legend (roll : list event) : list (string * string) :=
  map (fun i => (nth i GRAPH_COLORS ""%string, nth i PITCH_CLASSES ""%string))
      (filter (class_present roll) (seq 0 12)).

(** The legend entry [(name, color)] of pitch class [i]. *)
Definition legend_entry (i : nat) : string * string :=
  (nth i PITCH_CLASSES ""%string, nth i GRAPH_COLORS ""%string).

(** The script's [__main__] block after [music21.converter.parse]: the
    parsed score (given here already flattened) goes through
    [music21_stream_to_piano_roll], whose new list object is stored at a
    fresh heap location [r], and [save_piano_roll_fig(piano_roll_tuples,
    music_sheet_path)] runs with its defaults [output_path="."] and
    [show_legend=False].  Argument parsing and the file parsing done by
    music21 are outside the script. *)
Definition main_script (r : loc) (music_sheet_path : string)
    (flat_stream : list element) (w : world) : world * outcome :=
  let piano_roll_tuples := music21_stream_to_piano_roll flat_stream in
  save_piano_roll_fig r music_sheet_path "." false
    (mkWorld (heap_set (heap w) r piano_roll_tuples) (dirs w) (files w)
             (stdout w) (last_figure w)).

(** The pitches, offset and [quarterLength] of a note or chord element. *)
Definition el_pitches (el : element) : list Z :=
  match el with
  | Note m _ _ => [m]
  | Chord ms _ _ => ms
  | _ => []
  end.

Definition el_offset (el : element) : Q :=
  match el with
  | Note _ off _ | Chord _ off _ | OtherNotRest off _ => off
  | NonNote => 0%Q
  end.

Definition el_ql (el : element) : Q :=
  match el with
  | Note _ _ ql | Chord _ _ ql | OtherNotRest _ ql => ql
  | NonNote => 0%Q
  end.

(** Preconditions and predicates used in the statements. *)
Definition is_note_or_chord (el : element) : bool :=
  match el with
  | Note _ _ _ | Chord _ _ _ => true
  | _ => false
  end.


(** ** Lemmas on the flattener *)
Module Flatten.

Lemma stream_loop_acc (els : list element) (acc : list event) :
  stream_loop els acc = acc ++ flat_map element_tuples els.
Proof.
  revert acc; induction els as [|el r IH]; intros acc; simpl.
  - now rewrite app_nil_r.
  - now rewrite IH, app_assoc.
Qed.

Lemma to_piano_roll_flat (s : list element) :
  music21_stream_to_piano_roll s = flat_map element_tuples (notes_of s).
Proof. unfold music21_stream_to_piano_roll. now rewrite stream_loop_acc. Qed.

Lemma to_piano_roll_app (s1 s2 : list element) :
  music21_stream_to_piano_roll (s1 ++ s2)
  = music21_stream_to_piano_roll s1 ++ music21_stream_to_piano_roll s2.
Proof.
  rewrite !to_piano_roll_flat. unfold notes_of.
  now rewrite filter_app, flat_map_app.
Qed.

Lemma to_piano_roll_cons (el : element) (s : list element) :
  music21_stream_to_piano_roll (el :: s)
  = element_tuples el ++ music21_stream_to_piano_roll s.
Proof.
  rewrite !to_piano_roll_flat. unfold notes_of; simpl.
  destruct el; simpl; reflexivity.
Qed.

Lemma to_piano_roll_silent (s : list element) :
  forallb (fun el => negb (is_note_or_chord el)) s = true ->
  music21_stream_to_piano_roll s = [].
Proof.
  induction s as [|el r IH]; intros H; [reflexivity|].
  simpl in H; apply andb_prop in H as [H1 H2].
  rewrite to_piano_roll_cons, IH by exact H2.
  destruct el; simpl in *; congruence.
Qed.

End Flatten.

(** ** Claims on the flattener *)

(** C4: a flattened stream whose only note or chord is a single note of
    pitch [p] at absolute offset [t] with duration [d] (every other
    element being a rest, marking or other non-pitched element) yields
    exactly one tuple, [(p, t, t+d)]. *)
Theorem single_note_one_tuple (p : Z) (t d : Q) (pre post : list element)
  (Hothers : forallb (fun el => negb (is_note_or_chord el)) (pre ++ post)
             = true) :
  music21_stream_to_piano_roll (pre ++ Note p t d :: post)
  = [(p, t, (t + d)%Q)].
Proof.
  rewrite forallb_app in Hothers; apply andb_prop in Hothers as [H1 H2].
  rewrite Flatten.to_piano_roll_app, Flatten.to_piano_roll_cons.
  rewrite !Flatten.to_piano_roll_silent by assumption.
  reflexivity.
Qed.

Lemma single_note_one_tuple_witness :
  forallb (fun el => negb (is_note_or_chord el))
    ([NonNote; OtherNotRest 0 1] ++ [NonNote]) = true /\
  music21_stream_to_piano_roll
    ([NonNote; OtherNotRest 0 1] ++ Note 60 (3#2) (1#2) :: [NonNote])
  = [(60, 3#2, ((3#2) + (1#2))%Q)].
Proof.
  split; [reflexivity|].
  apply single_note_one_tuple. reflexivity.
Defined.

(** C5: a chord of [k] pitches contributes, at its place in the output,
    exactly [k] tuples, one per constituent pitch in order, all with the
    chord's offset as start and offset plus duration as end. *)
Theorem chord_k_tuples (ps : list Z) (t d : Q) (pre post : list element) :
  let chord_tuples := element_tuples (Chord ps t d) in
  music21_stream_to_piano_roll (pre ++ Chord ps t d :: post)
  = music21_stream_to_piano_roll pre ++ chord_tuples
    ++ music21_stream_to_piano_roll post
  /\ List.length chord_tuples = List.length ps
  /\ map ev_pitch chord_tuples = ps
  /\ Forall (fun e => ev_start e = t /\ ev_end e = (t + d)%Q) chord_tuples.
Proof.
  cbv zeta. split; [|split; [|split]].
  - now rewrite Flatten.to_piano_roll_app, Flatten.to_piano_roll_cons.
  - simpl. apply length_map.
  - simpl. rewrite map_map. apply map_id.
  - simpl. apply Forall_forall. intros e He.
    apply in_map_iff in He as [x [<- _]]. split; reflexivity.
Qed.

(** ** Lemmas on the flattener over Python numbers *)
Module FlattenPy.

Lemma filter_of_q (s : list element) :
  filter is_not_rest_py (map element_of_q s)
  = map element_of_q (filter is_not_rest s).
Proof.
  induction s as [|el r IH]; [reflexivity|].
  destruct el; simpl; rewrite IH; reflexivity.
Qed.

Lemma element_tuples_of_q (el : element) :
  element_tuples_py (element_of_q el)
  = Some (map event_of_q (element_tuples el)).
Proof.
  destruct el as [m off ql|ms off ql|off ql|]; simpl; try reflexivity.
  now rewrite map_map.
Qed.

Lemma stream_loop_of_q (els : list element) (acc : list event) :
  stream_loop_py (map element_of_q els) (map event_of_q acc)
  = Some (map event_of_q (stream_loop els acc)).
Proof.
  revert acc; induction els as [|el r IH]; intros acc; [reflexivity|].
  simpl. rewrite element_tuples_of_q, <- map_app. apply IH.
Qed.

(** On a stream of [Fraction]s the two models of the flattener agree. *)
Lemma to_piano_roll_py_frac (s : list element) :
  music21_stream_to_piano_roll_py (map element_of_q s)
  = Some (map event_of_q (music21_stream_to_piano_roll s)).
Proof.
  unfold music21_stream_to_piano_roll_py, music21_stream_to_piano_roll.
  rewrite filter_of_q. apply (stream_loop_of_q _ []).
Qed.



End FlattenPy.




(** ** Lemmas on the stable sort *)
Module SortFacts.
Section Generic.
Context {A K : Type} (lt : K -> K -> bool) (key : A -> K).

Lemma insert_perm (x : A) (l : list A) :
  Permutation (x :: l) (Py.insert lt key x l).
Proof.
  induction l as [|y r IH]; simpl; [reflexivity|].
  destruct (lt (key y) (key x)); [|reflexivity].
  rewrite <- IH. apply perm_swap.
Qed.

Lemma sort_perm (l : list A) : Permutation l (Py.sort lt key l).
Proof.
  induction l as [|x r IH]; simpl; [reflexivity|].
  rewrite <- insert_perm. now apply perm_skip.
Qed.

Variable R : A -> A -> Prop.
Hypothesis R_not_lt : forall x y, lt (key y) (key x) = false -> R x y.
Hypothesis R_lt : forall x y, lt (key y) (key x) = true -> R y x.

Lemma insert_sorted (x : A) (l : list A) :
  Sorted R l -> Sorted R (Py.insert lt key x l).
Proof.
  induction l as [|y r IH]; intros Hs; simpl.
  - repeat constructor.
  - destruct (lt (key y) (key x)) eqn:E.
    + apply Sorted_inv in Hs as [Hr Hhd].
      constructor; [now apply IH|].
      destruct r as [|z r']; simpl.
      * constructor. now apply R_lt.
      * destruct (lt (key z) (key x)) eqn:E2.
        -- inversion Hhd; subst. now constructor.
        -- constructor. now apply R_lt.
    + constructor; [exact Hs|]. constructor. now apply R_not_lt.
Qed.

Lemma sort_sorted (l : list A) : Sorted R (Py.sort lt key l).
Proof.
  induction l as [|x r IH]; simpl; [constructor|].
  now apply insert_sorted.
Qed.

Variable P : A -> bool.
Hypothesis P_eq_key : forall x y, P x = true -> P y = true ->
                                  lt (key y) (key x) = false.

Lemma filter_insert (x : A) (l : list A) :
  filter P (Py.insert lt key x l) = filter P (x :: l).
Proof.
  induction l as [|y r IH]; simpl; [reflexivity|].
  destruct (lt (key y) (key x)) eqn:E; [|reflexivity].
  simpl. rewrite IH. simpl.
  destruct (P x) eqn:Px, (P y) eqn:Py; try reflexivity.
  rewrite (P_eq_key x y Px Py) in E. discriminate.
Qed.

Lemma filter_sort (l : list A) : filter P (Py.sort lt key l) = filter P l.
Proof.
  induction l as [|x r IH]; simpl; [reflexivity|].
  rewrite filter_insert. simpl. now rewrite IH.
Qed.

End Generic.
End SortFacts.

(** ** Lemmas on the renderer *)
Module Render.

Lemma getitem_in_range {A} (l : list A) (d : A) (i : Z) :
  0 <= i < Z.of_nat (List.length l) ->
  Py.getitem l i = Some (nth (Z.to_nat i) l d).
Proof.
  intros Hi. unfold Py.getitem.
  replace ((0 <=? i) && (i <? Z.of_nat (List.length l))) with true
    by (symmetry; apply andb_true_intro; split; [apply Z.leb_le|apply Z.ltb_lt]; lia).
  apply nth_error_nth'. lia.
Qed.

Lemma getitem_last {A} (l : list A) :
  l <> [] -> exists x, Py.getitem l (-1) = Some x.
Proof.
  intros Hne. destruct l as [|a r]; [congruence|].
  assert (1 <= List.length (a :: r))%nat by (simpl; lia).
  unfold Py.getitem.
  replace ((0 <=? -1) && (-1 <? Z.of_nat (List.length (a :: r)))) with false
    by reflexivity.
  replace ((- Z.of_nat (List.length (a :: r)) <=? -1) && (-1 <? 0)) with true
    by (symmetry; apply andb_true_intro; split; [apply Z.leb_le; lia|reflexivity]).
  exists (nth (Z.to_nat (Z.of_nat (List.length (a :: r)) + -1)) (a :: r) a).
  apply nth_error_nth'. lia.
Qed.

Lemma mod12_bounds (p : Z) : 0 <= p mod 12 < 12.
Proof. apply Z.mod_pos_bound. lia. Qed.

Lemma getitem_colors (p : Z) :
  Py.getitem GRAPH_COLORS (p mod 12) = Some (color_of p).
Proof. apply getitem_in_range. simpl. pose proof (mod12_bounds p). lia. Qed.

Lemma getitem_classes (p : Z) :
  Py.getitem PITCH_CLASSES (p mod 12) = Some (class_of p).
Proof. apply getitem_in_range. simpl. pose proof (mod12_bounds p). lia. Qed.

Lemma plot_loop_ok (l : list event) (lines : list line) (d : dict) :
  plot_loop l (lines, d)
  = inr (lines ++ map line_of l, fold_left legend_step l d).
Proof.
  revert lines d; induction l as [|e r IH]; intros lines d; simpl.
  - now rewrite app_nil_r.
  - destruct e as [[p st] en]. unfold plot_event.
    rewrite getitem_colors, getitem_classes. simpl.
    rewrite IH, <- app_assoc. reflexivity.
Qed.

Lemma index_In (l : list string) (x : string) :
  In x l -> exists i, Py.index l x = Some i.
Proof.
  induction l as [|y r IH]; simpl; [tauto|]. intros [->|H].
  - exists 0%nat. now rewrite String.eqb_refl.
  - destruct (String.eqb y x); [now exists 0%nat|].
    destruct (IH H) as [i ->]. now exists (S i).
Qed.

Lemma dict_set_keys (d : dict) (k v : string) (kv : string * string) :
  In kv (dict_set d k v) -> In kv d \/ kv = (k, v).
Proof.
  unfold dict_set. destruct existsb.
  - intros H. apply in_map_iff in H as [kv' [Heq Hin]].
    destruct (String.eqb (fst kv') k); [now right|left; now subst].
  - intros H. apply in_app_or in H as [H|[H|[]]]; [now left|now right].
Qed.

Definition keys_in_table (d : dict) : Prop :=
  forall kv, In kv d -> In (fst kv) PITCH_CLASSES.

Lemma class_of_in_table (p : Z) : In (class_of p) PITCH_CLASSES.
Proof.
  unfold class_of. apply nth_In. simpl. pose proof (mod12_bounds p). lia.
Qed.

Lemma legend_fold_in_table (l : list event) (d : dict) :
  keys_in_table d -> keys_in_table (fold_left legend_step l d).
Proof.
  revert d; induction l as [|e r IH]; intros d Hd; simpl; [exact Hd|].
  apply IH. intros kv Hkv. apply dict_set_keys in Hkv as [H| ->].
  - now apply Hd.
  - apply class_of_in_table.
Qed.

Lemma legend_keys_ok (d : dict) :
  keys_in_table d ->
  exists keyed, legend_keys d = inr keyed
                /\ map snd keyed = d
                /\ Forall (fun ikv => Py.index PITCH_CLASSES (fst (snd ikv))
                                      = Some (fst ikv)) keyed.
Proof.
  induction d as [|kv r IH]; intros Hd; cbn [legend_keys].
  - exists []. repeat split. constructor.
  - destruct (index_In PITCH_CLASSES (fst kv)) as [i Hi];
      [apply Hd; now left|].
    destruct IH as [keyed [Hk [Hm Hf]]]; [intros x Hx; apply Hd; now right|].
    rewrite Hi. cbn [raise_opt bind]. rewrite Hk. cbn [bind].
    exists ((i, kv) :: keyed). simpl. rewrite Hm. repeat split.
    now constructor.
Qed.

Lemma legend_handles_ok (d : dict) :
  keys_in_table d -> exists hs, legend_handles d = inr hs.
Proof.
  intros Hd. destruct (legend_keys_ok d Hd) as [keyed [Hk _]].
  unfold legend_handles. rewrite Hk. simpl. eexists; reflexivity.
Qed.

End Render.

Module Run.

Lemma fold_min (r : list Z) (x : Z) :
  let m := fold_left (fun m y => if y <? m then y else m) r x in
  In m (x :: r) /\ forall p, In p (x :: r) -> m <= p.
Proof.
  revert x; induction r as [|y r IH]; intros x; cbn zeta; simpl.
  - split; [now left|]. intros p [<-|[]]; lia.
  - set (x' := if y <? x then y else x).
    destruct (IH x') as [Hin Hle]. cbn zeta in Hin, Hle.
    assert (Hb : x' <= x /\ x' <= y)
      by (subst x'; destruct (Z.ltb_spec y x); lia).
    assert (Hx : x' = x \/ x' = y) by (subst x'; destruct (y <? x); auto).
    pose proof (Hle x' (or_introl eq_refl)) as Hm.
    split.
    + destruct Hin as [Hm'|Hr]; [|right; now right].
      rewrite <- Hm'. destruct Hx as [-> | ->]; [now left|right; now left].
    + intros p [<-|[<-|Hp]]; try lia. apply Hle. now right.
Qed.

Lemma fold_max (r : list Z) (x : Z) :
  let m := fold_left (fun m y => if m <? y then y else m) r x in
  In m (x :: r) /\ forall p, In p (x :: r) -> p <= m.
Proof.
  revert x; induction r as [|y r IH]; intros x; cbn zeta; simpl.
  - split; [now left|]. intros p [<-|[]]; lia.
  - set (x' := if x <? y then y else x).
    destruct (IH x') as [Hin Hle]. cbn zeta in Hin, Hle.
    assert (Hb : x <= x' /\ y <= x')
      by (subst x'; destruct (Z.ltb_spec x y); lia).
    assert (Hx : x' = x \/ x' = y) by (subst x'; destruct (x <? y); auto).
    pose proof (Hle x' (or_introl eq_refl)) as Hm.
    split.
    + destruct Hin as [Hm'|Hr]; [|right; now right].
      rewrite <- Hm'. destruct Hx as [-> | ->]; [now left|right; now left].
    + intros p [<-|[<-|Hp]]; try lia. apply Hle. now right.
Qed.

Lemma y_bounds_ok (l : list event) :
  l <> [] ->
  exists m M,
    Py.min (map ev_pitch l) = Some m /\ Py.max (map ev_pitch l) = Some M /\
    In m (map ev_pitch l) /\ In M (map ev_pitch l) /\
    (forall p, In p (map ev_pitch l) -> m <= p <= M) /\
    y_bounds l = inr (m - m mod 12, M + 13 - M mod 12).
Proof.
  intros Hne. destruct l as [|e r]; [congruence|].
  destruct (fold_min (map ev_pitch r) (ev_pitch e)) as [Hin1 Hle1].
  destruct (fold_max (map ev_pitch r) (ev_pitch e)) as [Hin2 Hle2].
  eexists; eexists; split; [reflexivity|]; split; [reflexivity|].
  split; [exact Hin1|]; split; [exact Hin2|]. split.
  - intros p Hp. split; [apply Hle1|apply Hle2]; exact Hp.
  - reflexivity.
Qed.

Lemma sort_by_end_nonempty (l : list event) :
  l <> [] -> sort_by_end l <> [].
Proof.
  intros Hne Hs. apply Hne. apply Permutation_nil.
  rewrite <- Hs. symmetry. apply SortFacts.sort_perm.
Qed.

Lemma draw_ok (l : list event) (a b : Z) (sl : bool) :
  l <> [] ->
  exists fig hs,
    draw l a b sl = inr fig /\
    f_ylim fig = Some (a, b) /\
    f_lines fig = map line_of l /\
    legend_handles (fold_left legend_step l []) = inr hs /\
    f_legend fig = (if sl then Some hs else None).
Proof.
  intros Hne.
  destruct (Render.legend_handles_ok (fold_left legend_step l []))
    as [hs Hhs].
  { apply Render.legend_fold_in_table. intros kv []. }
  destruct (Render.getitem_last l Hne) as [x Hx].
  assert (Hlen : (0 <? List.length l)%nat = true).
  { destruct l; [congruence|reflexivity]. }
  unfold draw. rewrite Render.plot_loop_ok. cbn [bind].
  rewrite Hlen, Hx. cbn [raise_opt bind].
  destruct sl; [rewrite Hhs|]; cbn [bind];
    eexists; exists hs; repeat split; assumption || reflexivity.
Qed.

(** The [piano_rolls] directory of [output_path] is listed. *)
Definition dir_exists (output_path : string) (w : world) : bool :=
  is_dir (dirs w) (resolve (piano_rolls_dir output_path)).

Lemma save_nonempty (r : loc) (path output_path : string) (sl : bool)
  (w : world) :
  heap w r <> [] ->
  exists a b fig,
    y_bounds (heap w r) = inr (a, b) /\
    draw (sort_by_end (heap w r)) a b sl = inr fig /\
    save_piano_roll_fig r path output_path sl w
    = (mkWorld (heap_set (heap w) r (sort_by_end (heap w r))) (dirs w)
         (fst (fst (try_savefig (figure_file path output_path)
                      (dirs w) (files w) (stdout w))))
         (snd (fst (try_savefig (figure_file path output_path)
                      (dirs w) (files w) (stdout w))))
         (Some fig),
       snd (try_savefig (figure_file path output_path)
              (dirs w) (files w) (stdout w))).
Proof.
  intros Hne.
  destruct (y_bounds_ok _ Hne) as [m [M [_ [_ [_ [_ [_ Hy]]]]]]].
  destruct (draw_ok (sort_by_end (heap w r)) (m - m mod 12)
              (M + 13 - M mod 12) sl (sort_by_end_nonempty _ Hne))
    as [fig [hs [Hd _]]].
  exists (m - m mod 12), (M + 13 - M mod 12), fig.
  split; [exact Hy|]. split; [exact Hd|].
  unfold save_piano_roll_fig. rewrite Hy, Hd. reflexivity.
Qed.

End Run.

Module Run2.

Lemma save_empty (r : loc) (path output_path : string) (sl : bool)
  (w : world) :
  heap w r = [] ->
  save_piano_roll_fig r path output_path sl w = (w, Raised Py.ValueError).
Proof. intros He. unfold save_piano_roll_fig. now rewrite He. Qed.

Lemma heap_after (r : loc) (path output_path : string) (sl : bool)
  (w : world) (r' : loc) :
  heap (fst (save_piano_roll_fig r path output_path sl w)) r'
  = heap_set (heap w) r (sort_by_end (heap w r)) r'.
Proof.
  destruct (heap w r) as [|e l] eqn:He.
  - rewrite save_empty by exact He. simpl. unfold heap_set.
    destruct (Nat.eqb_spec r' r) as [->|]; [now rewrite He|reflexivity].
  - destruct (Run.save_nonempty r path output_path sl w) as [a [b [fig [_ [_ Hs]]]]];
      [congruence|].
    rewrite Hs. simpl. now rewrite He.
Qed.

(** With a non-empty roll, when [savefig] meets a missing directory on
    the way to the file ([FileNotFoundError]), the call prints the
    message, returns, and writes no file. *)
Lemma missing_dir_nonempty (r : loc) (path output_path : string) (sl : bool)
  (w : world) :
  heap w r <> [] ->
  savefig (figure_file path output_path) (dirs w) (files w)
  = inl Py.FileNotFoundError ->
  let '(w', o) := save_piano_roll_fig r path output_path sl w in
  o = Returned /\ files w' = files w /\
  stdout w' = stdout w ++ [DIR_MISSING_MSG].
Proof.
  intros Hne Hf.
  destruct (Run.save_nonempty r path output_path sl w Hne)
    as [a [b [fig [_ [_ Hs]]]]].
  rewrite Hs. unfold try_savefig. rewrite Hf. simpl. auto.
Qed.

Lemma sort_by_end_sorted (l : list event) :
  Sorted (fun a b => (ev_end a <= ev_end b)%Q) (sort_by_end l).
Proof.
  apply SortFacts.sort_sorted; unfold qltb; intros x y H.
  - apply Qle_bool_iff. now destruct (Qle_bool (ev_end x) (ev_end y)).
  - apply Qlt_le_weak, Qnot_le_lt. intros Hle.
    apply Qle_bool_iff in Hle. now rewrite Hle in H.
Qed.

Lemma sort_by_end_stable (l : list event) (k : Q) :
  filter (fun e => Qeq_bool (ev_end e) k) (sort_by_end l)
  = filter (fun e => Qeq_bool (ev_end e) k) l.
Proof.
  apply SortFacts.filter_sort. intros x y Hx Hy.
  apply Qeq_bool_iff in Hx, Hy. unfold qltb.
  assert (Hle : (ev_end x <= ev_end y)%Q).
  { apply Qle_lteq. right. now rewrite Hx, Hy. }
  apply Qle_bool_iff in Hle. now rewrite Hle.
Qed.

End Run2.

(** ** Claims on the renderer *)

(** C1 (code defect): on an empty piano roll, [min([])] on line 26 raises
    [ValueError] before anything is drawn, so the call crashes and the
    x-axis is never set, although the [else] branch of line 45-46 was
    written to set it to (0, 1) for that very input. *)
Theorem empty_roll_raises (w : world) (r : loc) (path output_path : string)
  (show_legend : bool) :
  let w' := mkWorld (heap_set (heap w) r []) (dirs w) (files w) (stdout w)
                    (last_figure w) in
  save_piano_roll_fig r path output_path show_legend w'
  = (w', Raised Py.ValueError)
  /\ (forall min_y max_y, exists fig,
        draw [] min_y max_y show_legend = inr fig
        /\ f_xlim fig = Some (0%Q, 1%Q)).
Proof.
  cbv zeta. split.
  - apply Run2.save_empty. simpl. unfold heap_set. now rewrite Nat.eqb_refl.
  - intros a b. destruct show_legend; eexists; split; reflexivity.
Qed.

(** C2, as stated, fails: for the notes 60 and 72 the upper vertical
    bound is 85, which is not an octave boundary (neither 72 nor 84). *)
Lemma ybounds_60_72_not_octave_aligned :
  let w := mkWorld (heap_set (fun _ => []) 0%nat
                      [(60, 0%Q, 1%Q); (72, 0%Q, 1%Q)])
             ["./piano_rolls"]%string [] [] None in
  option_map f_ylim
    (last_figure (fst (save_piano_roll_fig 0%nat "x" "." false w)))
  = Some (Some (60, 85))
  /\ 85 mod 12 <> 0 /\ 85 <> 72 /\ 85 <> 84.
Proof. vm_compute. repeat split; discriminate. Qed.

(** C2 (amended): on a non-empty roll the vertical bounds set on the
    figure are [(m - m mod 12, M + 13 - M mod 12)] with [m], [M] the
    minimum and maximum pitch: the lower bound is [m] rounded down to a
    multiple of 12; the upper bound is one more than the least multiple
    of 12 strictly above [M] (for the span 60..72: (60, 85)). *)
Theorem ybounds_octave_floor_and_next_plus_one (w : world) (r : loc)
  (path output_path : string) (show_legend : bool)
  (Hne : heap w r <> []) :
  exists fig m M,
    last_figure (fst (save_piano_roll_fig r path output_path show_legend w))
    = Some fig
    /\ f_ylim fig = Some (m - m mod 12, M + 13 - M mod 12)
    /\ In m (map ev_pitch (heap w r)) /\ In M (map ev_pitch (heap w r))
    /\ (forall p, In p (map ev_pitch (heap w r)) -> m <= p <= M)
    /\ (m - m mod 12) mod 12 = 0 /\ m - 12 < m - m mod 12 <= m
    /\ (M + 13 - M mod 12 - 1) mod 12 = 0
    /\ M < M + 13 - M mod 12 - 1 <= M + 12.
Proof.
  destruct (Run.y_bounds_ok _ Hne) as [m [M [_ [_ [Hm [HM [Hb Hy]]]]]]].
  destruct (Run.save_nonempty r path output_path show_legend w Hne)
    as [a [b [fig [Hy' [Hd Hs]]]]].
  rewrite Hy in Hy'. injection Hy' as <- <-.
  destruct (Run.draw_ok (sort_by_end (heap w r)) (m - m mod 12)
              (M + 13 - M mod 12) show_legend
              (Run.sort_by_end_nonempty _ Hne))
    as [fig' [hs [Hd' [Hyl _]]]].
  rewrite Hd in Hd'. injection Hd' as <-.
  exists fig, m, M. rewrite Hs. simpl.
  pose proof (Z.mod_pos_bound m 12) as Bm.
  pose proof (Z.mod_pos_bound M 12) as BM.
  pose proof (Z.div_mod m 12) as Dm.
  pose proof (Z.div_mod M 12) as DM.
  split; [reflexivity|]. split; [exact Hyl|].
  split; [exact Hm|]. split; [exact HM|]. split; [exact Hb|].
  split; [|split; [lia|split; [|lia]]].
  - replace (m - m mod 12) with (12 * (m / 12)) by lia.
    now rewrite Z.mul_comm, Z.mod_mul.
  - replace (M + 13 - M mod 12 - 1) with ((M / 12 + 1) * 12) by lia.
    now rewrite Z.mod_mul.
Qed.

Lemma ybounds_octave_floor_and_next_plus_one_witness :
  let w := mkWorld (heap_set (fun _ => []) 0%nat
                      [(60, 0%Q, 1%Q); (72, 0%Q, 1%Q)])
             ["./piano_rolls"]%string [] [] None in
  heap w 0%nat <> [] /\
  exists fig m M,
    last_figure (fst (save_piano_roll_fig 0%nat "x" "." false w)) = Some fig
    /\ f_ylim fig = Some (m - m mod 12, M + 13 - M mod 12)
    /\ In m (map ev_pitch (heap w 0%nat)) /\ In M (map ev_pitch (heap w 0%nat))
    /\ (forall p, In p (map ev_pitch (heap w 0%nat)) -> m <= p <= M)
    /\ (m - m mod 12) mod 12 = 0 /\ m - 12 < m - m mod 12 <= m
    /\ (M + 13 - M mod 12 - 1) mod 12 = 0
    /\ M < M + 13 - M mod 12 - 1 <= M + 12.
Proof.
  cbv zeta. split; [discriminate|].
  apply ybounds_octave_floor_and_next_plus_one. discriminate.
Defined.

(** C3 (code defect, same as C1): with the output directory missing and
    an empty piano roll, [min([])] raises [ValueError], which escapes the
    call; only [FileNotFoundError] from [savefig] is caught.  (For a
    non-empty roll the missing directory is handled as documented, see
    [Run2.missing_dir_nonempty].) *)
Theorem missing_dir_empty_roll_raises :
  let w := mkWorld (fun _ => []) [] [] [] None in
  Run.dir_exists "." w = false
  /\ save_piano_roll_fig 0%nat "x" "." false w = (w, Raised Py.ValueError).
Proof. split; reflexivity. Qed.

(** C6: the call sorts the caller's list object in place (the heap cell
    of the argument, no other one) by end time: the new contents are a
    permutation of the old one, ascending in end time, and the events of
    each end time keep their input order (stable). *)
Theorem sorts_caller_list_stably (w : world) (r : loc)
  (path output_path : string) (show_legend : bool) :
  let w' := fst (save_piano_roll_fig r path output_path show_legend w) in
  heap w' r = sort_by_end (heap w r)
  /\ (forall r', r' <> r -> heap w' r' = heap w r')
  /\ Sorted (fun a b => (ev_end a <= ev_end b)%Q) (heap w' r)
  /\ Permutation (heap w r) (heap w' r)
  /\ (forall k, filter (fun e => Qeq_bool (ev_end e) k) (heap w' r)
                = filter (fun e => Qeq_bool (ev_end e) k) (heap w r)).
Proof.
  cbv zeta.
  assert (Hr : heap (fst (save_piano_roll_fig r path output_path show_legend w)) r
               = sort_by_end (heap w r)).
  { rewrite Run2.heap_after. unfold heap_set. now rewrite Nat.eqb_refl. }
  rewrite Hr. split; [reflexivity|]. split.
  - intros r' Hne. rewrite Run2.heap_after. unfold heap_set.
    destruct (Nat.eqb_spec r' r); [contradiction|reflexivity].
  - split; [apply Run2.sort_by_end_sorted|].
    split; [apply SortFacts.sort_perm|].
    intros k. apply Run2.sort_by_end_stable.
Qed.

(** C7: each drawn line has the color [GRAPH_COLORS[pitch mod 12]] of
    its event's pitch, so the color depends only on the pitch class and
    [p] and [p + 12] get the same color. *)
Theorem color_by_pitch_class (w : world) (r : loc)
  (path output_path : string) (show_legend : bool)
  (Hne : heap w r <> []) :
  exists fig,
    last_figure (fst (save_piano_roll_fig r path output_path show_legend w))
    = Some fig
    /\ f_lines fig = map line_of (sort_by_end (heap w r))
    /\ (forall p, Py.getitem GRAPH_COLORS (p mod 12) = Some (color_of p))
    /\ (forall p q, p mod 12 = q mod 12 -> color_of p = color_of q)
    /\ (forall p, color_of p = color_of (p + 12)).
Proof.
  destruct (Run.save_nonempty r path output_path show_legend w Hne)
    as [a [b [fig [_ [Hd Hs]]]]].
  destruct (Run.draw_ok (sort_by_end (heap w r)) a b show_legend
              (Run.sort_by_end_nonempty _ Hne))
    as [fig' [hs [Hd' [_ [Hl _]]]]].
  rewrite Hd in Hd'. injection Hd' as <-.
  exists fig. rewrite Hs. split; [reflexivity|]. split; [exact Hl|].
  split; [exact Render.getitem_colors|].
  assert (Hpc : forall p q, p mod 12 = q mod 12 -> color_of p = color_of q).
  { intros p q Hpq. unfold color_of. now rewrite Hpq. }
  split; [exact Hpc|].
  intros p. apply Hpc.
  rewrite Z.add_mod, Z.mod_same, Z.add_0_r, Z.mod_mod by lia. reflexivity.
Qed.

Lemma color_by_pitch_class_witness :
  let w := mkWorld (heap_set (fun _ => []) 0%nat
                      [(61, 0%Q, 1%Q); (73, 0%Q, 1%Q)])
             ["./piano_rolls"]%string [] [] None in
  heap w 0%nat <> [] /\
  exists fig,
    last_figure (fst (save_piano_roll_fig 0%nat "x" "." true w)) = Some fig
    /\ f_lines fig = map line_of (sort_by_end (heap w 0%nat))
    /\ (forall p, Py.getitem GRAPH_COLORS (p mod 12) = Some (color_of p))
    /\ (forall p q, p mod 12 = q mod 12 -> color_of p = color_of q)
    /\ (forall p, color_of p = color_of (p + 12)).
Proof.
  cbv zeta. split; [discriminate|].
  apply color_by_pitch_class. discriminate.
Defined.

(** C10: for every int pitch, negative or above 127 included, [p % 12]
    is in 0..11, so [GRAPH_COLORS[pc]] and [PITCH_CLASSES[pc]] are in
    bounds, and the drawing loop never raises. *)
Theorem pitch_class_index_in_bounds :
  forall p : Z,
    0 <= p mod 12 < 12
    /\ Py.getitem GRAPH_COLORS (p mod 12) = Some (color_of p)
    /\ Py.getitem PITCH_CLASSES (p mod 12) = Some (class_of p)
    /\ (forall l lines d e, plot_loop l (lines, d) <> inl e).
Proof.
  intros p. split; [apply Render.mod12_bounds|].
  split; [apply Render.getitem_colors|].
  split; [apply Render.getitem_classes|].
  intros l lines d e. rewrite Render.plot_loop_ok. discriminate.
Qed.

(** ** Lemmas on the legend *)
Module Legend.

Lemma index_nth (i : nat) :
  (i < 12)%nat -> Py.index PITCH_CLASSES (nth i PITCH_CLASSES ""%string) = Some i.
Proof. intros Hi. do 12 (destruct i as [|i]; [reflexivity|]). lia. Qed.

Lemma name_inj (i j : nat) :
  (i < 12)%nat -> (j < 12)%nat ->
  nth i PITCH_CLASSES ""%string = nth j PITCH_CLASSES ""%string -> i = j.
Proof.
  intros Hi Hj Heq. pose proof (index_nth i Hi) as A.
  rewrite Heq, index_nth in A by exact Hj. congruence.
Qed.

Lemma entry_of_pitch (p : Z) :
  (class_of p, color_of p) = legend_entry (Z.to_nat (p mod 12)).
Proof. reflexivity. Qed.

Lemma pc_lt_12 (p : Z) : (Z.to_nat (p mod 12) < 12)%nat.
Proof. pose proof (Render.mod12_bounds p). lia. Qed.

(** A legend dict as the loop builds it: distinct keys, each entry the
    entry of some pitch class. *)
Definition good (d : dict) : Prop :=
  NoDup (map fst d) /\
  forall kv, In kv d -> exists i, (i < 12)%nat /\ kv = legend_entry i.

Lemma dict_set_entry (d : dict) (j : nat) :
  good d -> (j < 12)%nat ->
  let d' := dict_set d (fst (legend_entry j)) (snd (legend_entry j)) in
  good d' /\ forall kv, In kv d' <-> In kv d \/ kv = legend_entry j.
Proof.
  intros [Hnd Hent] Hj. cbv zeta. unfold dict_set.
  destruct (existsb (fun kv => String.eqb (fst kv) (fst (legend_entry j))) d)
    eqn:Ex.
  - assert (Hmap : map (fun kv => if String.eqb (fst kv) (fst (legend_entry j))
                                  then (fst (legend_entry j), snd (legend_entry j))
                                  else kv) d = d).
    { rewrite <- (map_id d) at 2. apply map_ext_in. intros kv Hkv.
      destruct (String.eqb_spec (fst kv) (fst (legend_entry j))) as [Hk|];
        [|reflexivity].
      destruct (Hent kv Hkv) as [i [Hi ->]]. simpl in Hk.
      rewrite (name_inj i j Hi Hj Hk). reflexivity. }
    rewrite Hmap. split; [split; assumption|].
    apply existsb_exists in Ex as [kv [Hkv Hk]].
    apply String.eqb_eq in Hk.
    destruct (Hent kv Hkv) as [i [Hi Hkvi]]. subst kv. simpl in Hk.
    rewrite (name_inj i j Hi Hj Hk) in Hkv.
    intros kv; split; [now left|]. intros [H| ->]; assumption.
  - split; [split|].
    + rewrite map_app. simpl.
      apply (Permutation_NoDup (Permutation_cons_append _ _)).
      constructor; [|exact Hnd]. intros Hin.
      apply in_map_iff in Hin as [kv [Hk Hkv]].
      assert (existsb (fun kv => String.eqb (fst kv) (fst (legend_entry j))) d = true)
        as Ht by (apply existsb_exists; exists kv; split;
                  [exact Hkv|apply String.eqb_eq; exact Hk]).
      congruence.
    + intros kv Hkv. apply in_app_or in Hkv as [H|[H|[]]];
        [now apply Hent|now exists j].
    + intros kv. rewrite in_app_iff. unfold legend_entry. simpl. intuition congruence.
Qed.

Lemma fold_legend (l : list event) (d : dict) :
  good d ->
  good (fold_left legend_step l d) /\
  forall kv, In kv (fold_left legend_step l d) <->
             In kv d \/ exists e, In e l /\ kv = legend_entry (Z.to_nat (ev_pitch e mod 12)).
Proof.
  revert d; induction l as [|e r IH]; intros d Hd; simpl.
  - split; [exact Hd|]. intros kv. split; [now left|].
    intros [H|[e [[] _]]]. exact H.
  - unfold legend_step at 2.
    pose proof (dict_set_entry d _ Hd (pc_lt_12 (ev_pitch e))) as [Hg Hin].
    cbv zeta in Hg, Hin.
    change (dict_set d (class_of (ev_pitch e)) (color_of (ev_pitch e)))
      with (dict_set d (fst (legend_entry (Z.to_nat (ev_pitch e mod 12))))
                       (snd (legend_entry (Z.to_nat (ev_pitch e mod 12))))).
    destruct (IH _ Hg) as [Hg' Hin']. split; [exact Hg'|].
    intros kv. rewrite Hin', Hin. split.
    + intros [[H|H]|[e' [He' H]]]; [now left|right; exists e; now split; [left|]|].
      right. exists e'. split; [now right|exact H].
    + intros [H|[e' [[<-|He'] H]]]; [now left; left|now left; right|].
      right. exists e'. now split.
Qed.

End Legend.

Module LegendOrder.

Lemma sorted_unique {A} (l1 l2 : list (nat * A)) :
  StronglySorted (fun x y => (fst x <= fst y)%nat) l1 -> NoDup (map fst l1) ->
  StronglySorted (fun x y => (fst x <= fst y)%nat) l2 -> NoDup (map fst l2) ->
  (forall x, In x l1 <-> In x l2) -> l1 = l2.
Proof.
  revert l2; induction l1 as [|a r1 IH]; intros l2 S1 N1 S2 N2 Hin.
  - destruct l2 as [|b r2]; [reflexivity|].
    exfalso. apply (proj2 (Hin b)). now left.
  - destruct l2 as [|b r2]; [exfalso; apply (proj1 (Hin a)); now left|].
    apply StronglySorted_inv in S1 as [S1 F1].
    apply StronglySorted_inv in S2 as [S2 F2].
    rewrite Forall_forall in F1, F2.
    simpl in N1, N2. inversion N1 as [|? ? Na N1']; subst.
    inversion N2 as [|? ? Nb N2']; subst.
    assert (Hab : a = b).
    { destruct (proj1 (Hin a) (or_introl eq_refl)) as [|Ha]; [congruence|].
      destruct (proj2 (Hin b) (or_introl eq_refl)) as [|Hb]; [congruence|].
      pose proof (F1 b Hb). pose proof (F2 a Ha).
      exfalso. apply Nb. replace (fst b) with (fst a) by lia.
      now apply in_map. }
    subst b. f_equal. apply IH; try assumption.
    intros x. split; intros Hx.
    + destruct (proj1 (Hin x) (or_intror Hx)) as [<-|]; [|assumption].
      exfalso. apply Na. now apply in_map.
    + destruct (proj2 (Hin x) (or_intror Hx)) as [<-|]; [|assumption].
      exfalso. apply Nb. now apply in_map.
Qed.

Lemma seq_strongly_sorted (a n : nat) : StronglySorted le (seq a n).
Proof.
  revert a; induction n as [|n IH]; intros a; simpl; constructor; [apply IH|].
  apply Forall_forall. intros x Hx. apply in_seq in Hx. lia.
Qed.

Lemma filter_strongly_sorted {A} (R : A -> A -> Prop) (f : A -> bool) l :
  StronglySorted R l -> StronglySorted R (filter f l).
Proof.
  induction l as [|x r IH]; intros H; simpl; [constructor|].
  apply StronglySorted_inv in H as [H F].
  destruct (f x); [|now apply IH]. constructor; [now apply IH|].
  rewrite Forall_forall in *. intros y Hy. apply filter_In in Hy as [Hy _].
  now apply F.
Qed.

Lemma fold_dict_set_fresh (items acc : dict) :
  NoDup (map fst (acc ++ items)) ->
  fold_left (fun d kv => dict_set d (fst kv) (snd kv)) items acc = acc ++ items.
Proof.
  revert acc; induction items as [|kv r IH]; intros acc Hnd; simpl.
  - now rewrite app_nil_r.
  - assert (Hfresh : existsb (fun kv' => String.eqb (fst kv') (fst kv)) acc = false).
    { apply Bool.not_true_iff_false. intros Ht.
      apply existsb_exists in Ht as [kv' [Hkv' Hk]]. apply String.eqb_eq in Hk.
      rewrite map_app in Hnd. simpl in Hnd.
      apply NoDup_remove_2 in Hnd. apply Hnd. apply in_or_app. left.
      rewrite <- Hk. now apply in_map. }
    unfold dict_set at 2. rewrite Hfresh. rewrite <- surjective_pairing.
    rewrite IH; [now rewrite <- app_assoc|]. now rewrite <- app_assoc.
Qed.

Lemma combine_swap (L : dict) :
  combine (map snd L) (map fst L) = map (fun kv => (snd kv, fst kv)) L.
Proof. induction L as [|kv r IH]; simpl; [reflexivity|]. now rewrite IH. Qed.

Lemma class_present_iff (l : list event) (i : nat) :
  class_present l i = true <->
  exists e, In e l /\ Z.to_nat (ev_pitch e mod 12) = i.
Proof.
  unfold class_present. rewrite existsb_exists.
  split; intros [e [He Hi]]; exists e; split; try assumption;
    apply Nat.eqb_eq; assumption.
Qed.

End LegendOrder.

Module LegendMain.

Lemma map_pair_strongly_sorted {A} (g : nat -> A) (idxs : list nat) :
  StronglySorted le idxs ->
  StronglySorted (fun x y => (fst x <= fst y)%nat) (map (fun i => (i, g i)) idxs).
Proof.
  induction idxs as [|i r IH]; intros H; simpl; [constructor|].
  apply StronglySorted_inv in H as [H F]. constructor; [now apply IH|].
  rewrite Forall_forall in *. intros y Hy. apply in_map_iff in Hy as [j [<- Hj]].
  simpl. now apply F.
Qed.

Lemma good_nil : Legend.good [].
Proof. split; [constructor|intros kv []]. Qed.

Lemma legend_handles_fold (l : list event) :
  legend_handles (fold_left legend_step l []) = inr (expected_legend l).
Proof.
  set (D := fold_left legend_step l []).
  destruct (Legend.fold_legend l [] good_nil) as [[HndD HentD] HinD].
  fold D in HndD, HentD, HinD.
  destruct (Render.legend_keys_ok D
              (Render.legend_fold_in_table l [] (fun kv H => match H with end)))
    as [keyed [Hk [Hmap Hidx]]].
  rewrite Forall_forall in Hidx.
  assert (Hkeyed : forall x, In x keyed <->
            exists i, (i < 12)%nat /\ class_present l i = true
                      /\ x = (i, legend_entry i)).
  { intros x. split.
    - intros Hx. assert (Hs : In (snd x) D) by (rewrite <- Hmap; now apply in_map).
      destruct (proj1 (HinD (snd x)) Hs) as [[]|[e [He Hxe]]].
      pose proof (Hidx x Hx) as Hix. rewrite Hxe in Hix. cbn [fst snd legend_entry] in Hix.
      rewrite Legend.index_nth in Hix by apply Legend.pc_lt_12.
      exists (Z.to_nat (ev_pitch e mod 12)).
      split; [apply Legend.pc_lt_12|].
      split; [apply LegendOrder.class_present_iff; now exists e|].
      destruct x as [i kv]. simpl in *. congruence.
    - intros [i [Hi [Hp ->]]].
      apply LegendOrder.class_present_iff in Hp as [e [He Hei]].
      assert (HD : In (legend_entry i) D)
        by (apply HinD; right; exists e; split; [exact He|now rewrite Hei]).
      rewrite <- Hmap in HD. apply in_map_iff in HD as [x [Hsx Hx]].
      pose proof (Hidx x Hx) as Hix. rewrite Hsx in Hix. cbn [fst snd legend_entry] in Hix.
      rewrite Legend.index_nth in Hix by exact Hi.
      destruct x as [j kv]. simpl in *. congruence. }
  assert (HndK : NoDup (map fst keyed)).
  { apply (NoDup_map_inv (fun i => nth i PITCH_CLASSES ""%string)).
    rewrite map_map.
    replace (map (fun x => nth (fst x) PITCH_CLASSES ""%string) keyed)
      with (map fst D); [exact HndD|].
    rewrite <- Hmap, map_map. apply map_ext_in. intros x Hx.
    apply Hkeyed in Hx as [i [_ [_ ->]]]. reflexivity. }
  unfold legend_handles. rewrite Hk. cbn [bind]. cbv zeta.
  set (S := Py.sort Nat.ltb fst keyed).
  assert (HpS : Permutation keyed S) by apply SortFacts.sort_perm.
  assert (HndS : NoDup (map fst (map snd S))).
  { apply (Permutation_NoDup (l := map fst D)); [|exact HndD].
    rewrite <- Hmap. now apply Permutation_map, Permutation_map. }
  rewrite LegendOrder.fold_dict_set_fresh by exact HndS. simpl.
  rewrite LegendOrder.combine_swap.
  set (idxs := filter (class_present l) (seq 0 12)).
  assert (HST : S = map (fun i => (i, legend_entry i)) idxs).
  { apply LegendOrder.sorted_unique.
    - apply Sorted_StronglySorted; [intros x y z; lia|].
      apply SortFacts.sort_sorted; intros x y H;
        [apply Nat.ltb_ge in H|apply Nat.ltb_lt in H]; lia.
    - apply (Permutation_NoDup (l := map fst keyed)); [|exact HndK].
      now apply Permutation_map.
    - apply map_pair_strongly_sorted, LegendOrder.filter_strongly_sorted,
        LegendOrder.seq_strongly_sorted.
    - rewrite map_map, map_id. apply NoDup_filter, seq_NoDup.
    - intros x. split; intros Hx.
      + apply (Permutation_in _ (Permutation_sym HpS)) in Hx.
        apply Hkeyed in Hx as [i [Hi [Hp ->]]].
        apply in_map_iff. exists i. split; [reflexivity|].
        apply filter_In. split; [apply in_seq; lia|exact Hp].
      + apply (Permutation_in _ HpS). apply Hkeyed.
        apply in_map_iff in Hx as [i [<- Hi]].
        apply filter_In in Hi as [Hi Hp]. apply in_seq in Hi.
        exists i. repeat split; [lia|exact Hp]. }
  rewrite HST. unfold expected_legend. fold idxs.
  rewrite !map_map. reflexivity.
Qed.

End LegendMain.

Lemma expected_legend_perm (l l' : list event) :
  Permutation l l' -> expected_legend l = expected_legend l'.
Proof.
  intros Hp. unfold expected_legend. f_equal. apply filter_ext. intros i.
  unfold class_present.
  destruct (existsb _ l) eqn:E1, (existsb _ l') eqn:E2; try reflexivity.
  - apply existsb_exists in E1 as [e [He Hi]].
    assert (existsb (fun e => Nat.eqb (Z.to_nat (ev_pitch e mod 12)) i) l' = true)
      by (apply existsb_exists; exists e; split;
          [exact (Permutation_in _ Hp He)|exact Hi]).
    congruence.
  - apply existsb_exists in E2 as [e [He Hi]].
    assert (existsb (fun e => Nat.eqb (Z.to_nat (ev_pitch e mod 12)) i) l = true)
      by (apply existsb_exists; exists e; split;
          [exact (Permutation_in _ (Permutation_sym Hp) He)|exact Hi]).
    congruence.
Qed.

(** C8: with [show_legend] set, the legend of the figure has exactly one
    [(color, name)] entry per pitch class present among the input events,
    in the order of [PITCH_CLASSES]. *)
Theorem legend_one_entry_per_present_class (w : world) (r : loc)
  (path output_path : string) (Hne : heap w r <> []) :
  exists fig,
    last_figure (fst (save_piano_roll_fig r path output_path true w))
    = Some fig
    /\ f_legend fig = Some (expected_legend (heap w r)).
Proof.
  destruct (Run.save_nonempty r path output_path true w Hne)
    as [a [b [fig [_ [Hd Hs]]]]].
  destruct (Run.draw_ok (sort_by_end (heap w r)) a b true
              (Run.sort_by_end_nonempty _ Hne))
    as [fig' [hs [Hd' [_ [_ [Hh Hl]]]]]].
  rewrite Hd in Hd'. injection Hd' as <-.
  exists fig. rewrite Hs. split; [reflexivity|].
  rewrite Hl, LegendMain.legend_handles_fold in *.
  injection Hh as <-. f_equal.
  symmetry. apply expected_legend_perm, SortFacts.sort_perm.
Qed.

Lemma legend_one_entry_per_present_class_witness :
  let w := mkWorld (heap_set (fun _ => []) 0%nat
                      [(76, 0%Q, 1%Q); (61, 0%Q, 2%Q); (64, 1%Q, 2%Q)])
             ["./piano_rolls"]%string [] [] None in
  heap w 0%nat <> [] /\
  expected_legend (heap w 0%nat)
  = [("green", "C#/Db"); ("purple", "E")]%string /\
  exists fig,
    last_figure (fst (save_piano_roll_fig 0%nat "x" "." true w)) = Some fig
    /\ f_legend fig = Some (expected_legend (heap w 0%nat)).
Proof.
  cbv zeta. split; [discriminate|]. split; [vm_compute; reflexivity|].
  apply legend_one_entry_per_present_class. discriminate.
Defined.

(** ** Further properties of the renderer *)
Module Axes.

Lemma draw_fields (l : list event) (a b : Z) (sl : bool) (fig : figure) :
  draw l a b sl = inr fig ->
  f_yticks fig = Py.range a b 12
  /\ f_yticklabels fig = map (fun i => (i / 12 - 1, i)) (Py.range a b 12)
  /\ (l <> [] -> exists x, Py.getitem l (-1) = Some x
                           /\ f_xlim fig = Some (0%Q, (ev_end x + (1 # 10))%Q)).
Proof.
  unfold draw. rewrite Render.plot_loop_ok. cbn [bind].
  destruct (0 <? List.length l)%nat eqn:Hlen.
  - destruct (Py.getitem l (-1)) as [x|] eqn:Hx; cbn [raise_opt bind];
      [|discriminate].
    destruct sl; [destruct (legend_handles _)|]; cbn [bind]; try discriminate;
      intros H; injection H as <-; simpl; repeat split; eauto.
  - cbn [bind].
    destruct sl; [destruct (legend_handles _)|]; cbn [bind]; try discriminate;
      intros H; injection H as <-; simpl; repeat split.
    all: intros Hne; exfalso; destruct l as [|e r].
    all: first [now apply Hne | discriminate Hlen].
Qed.

End Axes.

Module Axes2.

Lemma range_aux_seq (a step : Z) (n : nat) :
  Py.range_aux a step n = map (fun j => a + step * Z.of_nat j) (seq 0 n).
Proof.
  revert a; induction n as [|n IH]; intros a; simpl; [reflexivity|].
  rewrite IH, <- seq_shift, map_map. f_equal; [lia|].
  apply map_ext. intros j. lia.
Qed.

Lemma getitem_last_app {A} (l : list A) (a : A) :
  Py.getitem (l ++ [a]) (-1) = Some a.
Proof.
  unfold Py.getitem. rewrite length_app. simpl List.length.
  replace ((0 <=? -1) && (-1 <? Z.of_nat (List.length l + 1))) with false
    by reflexivity.
  replace ((- Z.of_nat (List.length l + 1) <=? -1) && (-1 <? 0)) with true
    by (symmetry; apply andb_true_intro; split; [apply Z.leb_le; lia|reflexivity]).
  replace (Z.to_nat (Z.of_nat (List.length l + 1) + -1)) with (List.length l)
    by lia.
  rewrite nth_error_app2 by lia. now rewrite Nat.sub_diag.
Qed.

Lemma sorted_last_max (l : list event) (a : event) :
  Sorted (fun x y => (ev_end x <= ev_end y)%Q) (l ++ [a]) ->
  forall y, In y (l ++ [a]) -> (ev_end y <= ev_end a)%Q.
Proof.
  intros Hs. apply Sorted_StronglySorted in Hs;
    [|intros x y z; apply Qle_trans].
  induction l as [|b r IH]; intros y Hy; simpl in *.
  - destruct Hy as [<-|[]]. apply Qle_refl.
  - apply StronglySorted_inv in Hs as [Hs F]. destruct Hy as [<-|Hy].
    + rewrite Forall_forall in F. apply F, in_or_app. right. now left.
    + now apply IH.
Qed.

End Axes2.

(** X1: on a non-empty roll the x-axis runs from 0 to 0.1 past the
    latest end time of the roll (the last event after the sort by end
    time, line 44). *)
Theorem xlim_right_past_latest_end (w : world) (r : loc)
  (path output_path : string) (show_legend : bool)
  (Hne : heap w r <> []) :
  exists fig x,
    last_figure (fst (save_piano_roll_fig r path output_path show_legend w))
    = Some fig
    /\ In x (heap w r)
    /\ f_xlim fig = Some (0%Q, (ev_end x + (1 # 10))%Q)
    /\ (forall e, In e (heap w r) -> (ev_end e <= ev_end x)%Q).
Proof.
  destruct (Run.save_nonempty r path output_path show_legend w Hne)
    as [a [b [fig [_ [Hd Hs]]]]].
  pose proof (Run.sort_by_end_nonempty _ Hne) as Hne'.
  destruct (Axes.draw_fields _ _ _ _ _ Hd) as [_ [_ Hx]].
  destruct (Hx Hne') as [x [Hgx Hxl]].
  assert (Hp : Permutation (heap w r) (sort_by_end (heap w r)))
    by apply SortFacts.sort_perm.
  pose proof (Run2.sort_by_end_sorted (heap w r)) as Hsorted.
  destruct (exists_last Hne') as [l' [a' Ha']].
  rewrite Ha', Axes2.getitem_last_app in Hgx. injection Hgx as <-.
  exists fig, a'. rewrite Hs. split; [reflexivity|].
  split; [apply (Permutation_in _ (Permutation_sym Hp)); rewrite Ha';
          apply in_or_app; right; now left|].
  split; [exact Hxl|].
  intros e He. rewrite Ha' in Hsorted.
  apply (Axes2.sorted_last_max l' a' Hsorted). rewrite <- Ha'.
  exact (Permutation_in _ Hp He).
Qed.

Lemma xlim_right_past_latest_end_witness :
  let w := mkWorld (heap_set (fun _ => []) 0%nat
                      [(60, 0%Q, 3%Q); (64, 1%Q, 2%Q)])
             ["./piano_rolls"]%string [] [] None in
  heap w 0%nat <> [] /\
  exists fig x,
    last_figure (fst (save_piano_roll_fig 0%nat "x" "." false w)) = Some fig
    /\ In x (heap w 0%nat)
    /\ f_xlim fig = Some (0%Q, (ev_end x + (1 # 10))%Q)
    /\ (forall e, In e (heap w 0%nat) -> (ev_end e <= ev_end x)%Q).
Proof.
  cbv zeta. split; [discriminate|].
  apply xlim_right_past_latest_end. discriminate.
Defined.

(** X2: on a non-empty roll with lowest pitch [m] and highest [M], the
    y ticks are the multiples of 12 from [12 * (m // 12)] up to
    [12 * (M // 12) + 12], ascending by 12; and the C of every event's
    octave is among them with the label [C{p // 12 - 1}] (lines 52-53). *)
Theorem yticks_cover_every_octave (w : world) (r : loc)
  (path output_path : string) (show_legend : bool)
  (Hne : heap w r <> []) :
  exists fig m M,
    last_figure (fst (save_piano_roll_fig r path output_path show_legend w))
    = Some fig
    /\ Py.min (map ev_pitch (heap w r)) = Some m
    /\ Py.max (map ev_pitch (heap w r)) = Some M
    /\ f_yticks fig = map (fun j => 12 * (m / 12) + 12 * Z.of_nat j)
                          (seq 0 (Z.to_nat (M / 12 - m / 12 + 2)))
    /\ (forall p, In p (map ev_pitch (heap w r)) ->
        In (p / 12 - 1, p - p mod 12) (f_yticklabels fig)).
Proof.
  destruct (Run.y_bounds_ok _ Hne) as [m [M [Hm [HM [Hinm [_ [Hb Hy]]]]]]].
  destruct (Run.save_nonempty r path output_path show_legend w Hne)
    as [a [b [fig [Hy' [Hd Hs]]]]].
  rewrite Hy in Hy'. injection Hy' as <- <-.
  assert (Hmm : m <= M) by apply (Hb m Hinm).
  destruct (Axes.draw_fields _ _ _ _ _ Hd) as [Ht [Hl _]].
  assert (Hm12 : 0 <= m mod 12 < 12) by apply Render.mod12_bounds.
  assert (HM12 : 0 <= M mod 12 < 12) by apply Render.mod12_bounds.
  pose proof (Z.div_mod m 12) as Dm. pose proof (Z.div_mod M 12) as DM.
  assert (Hticks : f_yticks fig = map (fun j => 12 * (m / 12) + 12 * Z.of_nat j)
                     (seq 0 (Z.to_nat (M / 12 - m / 12 + 2)))).
  { rewrite Ht. unfold Py.range. rewrite Axes2.range_aux_seq.
    replace ((M + 13 - M mod 12 - (m - m mod 12) + 12 - 1) / 12)
      with (M / 12 - m / 12 + 2).
    - apply map_ext. intros j. lia.
    - replace (M + 13 - M mod 12 - (m - m mod 12) + 12 - 1)
        with ((M / 12 - m / 12 + 2) * 12) by lia.
      now rewrite Z.div_mul. }
  exists fig, m, M. rewrite Hs. split; [reflexivity|].
  split; [exact Hm|]. split; [exact HM|]. split; [exact Hticks|].
  intros p Hp. destruct (Hb p Hp) as [Hmp HpM].
  rewrite Hl, <- Ht, Hticks. apply in_map_iff.
  exists (p - p mod 12). split.
  - f_equal. f_equal.
    replace (p - p mod 12) with (p / 12 * 12) by (pose proof (Z.div_mod p 12); lia).
    now rewrite Z.div_mul.
  - apply in_map_iff. exists (Z.to_nat (p / 12 - m / 12)). split.
    + pose proof (Z.div_mod p 12). pose proof (Z.div_le_mono m p 12).
      lia.
    + apply in_seq. pose proof (Z.div_le_mono m p 12).
      pose proof (Z.div_le_mono p M 12). lia.
Qed.

Lemma yticks_cover_every_octave_witness :
  let w := mkWorld (heap_set (fun _ => []) 0%nat
                      [(59, 0%Q, 1%Q); (-3, 0%Q, 1%Q); (72, 1%Q, 2%Q)])
             ["./piano_rolls"]%string [] [] None in
  heap w 0%nat <> [] /\
  exists fig m M,
    last_figure (fst (save_piano_roll_fig 0%nat "x" "." false w)) = Some fig
    /\ Py.min (map ev_pitch (heap w 0%nat)) = Some m
    /\ Py.max (map ev_pitch (heap w 0%nat)) = Some M
    /\ f_yticks fig = map (fun j => 12 * (m / 12) + 12 * Z.of_nat j)
                          (seq 0 (Z.to_nat (M / 12 - m / 12 + 2)))
    /\ (forall p, In p (map ev_pitch (heap w 0%nat)) ->
        In (p / 12 - 1, p - p mod 12) (f_yticklabels fig)).
Proof.
  cbv zeta. split; [discriminate|].
  apply yticks_cover_every_octave. discriminate.
Defined.

Module SaveFacts.



(** [savefig] writes the one file it is given, or nothing. *)
Lemma savefig_files (file : string) (dirs files fs : list string) :
  savefig file dirs files = inr fs -> fs = files \/ fs = file :: files.
Proof.
  unfold savefig.
  destruct walk_dirs as [e'|cur]; simpl; intros H; [discriminate|].
  destruct (_ || _ || _); [discriminate|].
  destruct is_dir; [discriminate|].
  destruct is_file; injection H as <-; auto.
Qed.

End SaveFacts.


(** X4: the call never changes the directories; it adds at most one
    file, [{output_path}/piano_rolls/{path}.png], and only on a non-empty
    roll; it prints the message exactly when the roll is non-empty and
    [savefig] raises [FileNotFoundError]. *)
Theorem save_file_effects (w : world) (r : loc) (path output_path : string)
  (show_legend : bool) :
  let w' := fst (save_piano_roll_fig r path output_path show_legend w) in
  let nonempty := match heap w r with [] => false | _ => true end in
  dirs w' = dirs w
  /\ (files w' = files w
      \/ (nonempty = true
          /\ files w' = figure_file path output_path :: files w))
  /\ stdout w' = (if nonempty
                  then match savefig (figure_file path output_path)
                               (dirs w) (files w) with
                       | inl Py.FileNotFoundError => stdout w ++ [DIR_MISSING_MSG]
                       | _ => stdout w
                       end
                  else stdout w).
Proof.
  cbv zeta. destruct (heap w r) as [|e l] eqn:He.
  - rewrite Run2.save_empty by exact He. simpl. auto.
  - destruct (Run.save_nonempty r path output_path show_legend w)
      as [a [b [fig [_ [_ Hs]]]]]; [congruence|].
    rewrite Hs. simpl. unfold try_savefig.
    destruct savefig as [e'|fs] eqn:Hf.
    + destruct e'; simpl; auto.
    + simpl. destruct (SaveFacts.savefig_files _ _ _ _ Hf) as [H| H]; rewrite H; auto.
Qed.

(** An [output_path] that is a regular file: [NotADirectoryError]
    escapes the call. *)
Example output_path_is_a_file :
  let w := mkWorld (heap_set (fun _ => []) 0%nat [(60, 0%Q, 1%Q)])
             [] ["out"]%string [] None in
  snd (save_piano_roll_fig 0%nat "x" "out" false w)
  = Raised Py.NotADirectoryError.
Proof. vm_compute. reflexivity. Qed.

(** A [path] with a slash names a subdirectory of [piano_rolls]; when it
    is missing, the message is printed and no file is written. *)
Example path_with_subdirectory :
  let w := mkWorld (heap_set (fun _ => []) 0%nat [(60, 0%Q, 1%Q)])
             ["./piano_rolls"]%string [] [] None in
  let '(w', o) := save_piano_roll_fig 0%nat "songs/a.xml" "." false w in
  (o, files w', stdout w') = (Returned, [], [DIR_MISSING_MSG]).
Proof. vm_compute. reflexivity. Qed.

Module Toggle.

Lemma draw_legend_toggle (l : list event) (a b : Z) :
  l <> [] ->
  exists fig,
    draw l a b true = inr fig
    /\ draw l a b false
       = inr (mkFigure (f_xlim fig) (f_ylim fig) (f_lines fig) (f_yticks fig)
                       (f_yticklabels fig) None).
Proof.
  intros Hne.
  destruct (Render.legend_handles_ok (fold_left legend_step l []))
    as [hs Hhs].
  { apply Render.legend_fold_in_table. intros kv []. }
  destruct (Render.getitem_last l Hne) as [x Hx].
  assert (Hlen : (0 <? List.length l)%nat = true).
  { destruct l; [congruence|reflexivity]. }
  unfold draw. rewrite Render.plot_loop_ok. cbn [bind].
  rewrite Hlen, Hx. cbn [raise_opt bind]. rewrite Hhs. cbn [bind].
  eexists. split; reflexivity.
Qed.

End Toggle.

(** X5: [show_legend] only decides whether a legend is added: with it
    off, the call has the same effects and builds the same figure (same
    limits, lines and ticks) as with it on, minus the legend. *)
Theorem show_legend_only_adds_legend (w : world) (r : loc)
  (path output_path : string) (Hne : heap w r <> []) :
  let '(wt, ot) := save_piano_roll_fig r path output_path true w in
  let '(wf, of) := save_piano_roll_fig r path output_path false w in
  ot = of /\ heap wt r = heap wf r /\ files wt = files wf
  /\ stdout wt = stdout wf
  /\ last_figure wf
     = option_map (fun f => mkFigure (f_xlim f) (f_ylim f) (f_lines f)
                              (f_yticks f) (f_yticklabels f) None)
                  (last_figure wt).
Proof.
  destruct (Run.save_nonempty r path output_path true w Hne)
    as [a [b [ft [Hy [Hdt Hst]]]]].
  destruct (Run.save_nonempty r path output_path false w Hne)
    as [a' [b' [ff [Hy' [Hdf Hsf]]]]].
  rewrite Hy in Hy'. injection Hy' as <- <-.
  destruct (Toggle.draw_legend_toggle (sort_by_end (heap w r)) a b
              (Run.sort_by_end_nonempty _ Hne)) as [fig [H1 H2]].
  rewrite Hdt in H1. injection H1 as <-. rewrite Hdf in H2. injection H2 as ->.
  rewrite Hst, Hsf. simpl. repeat split.
Qed.

Lemma show_legend_only_adds_legend_witness :
  let w := mkWorld (heap_set (fun _ => []) 0%nat
                      [(60, 0%Q, 1%Q); (67, 0%Q, 1%Q)])
             ["./piano_rolls"]%string [] [] None in
  heap w 0%nat <> [] /\
  let '(wt, ot) := save_piano_roll_fig 0%nat "x" "." true w in
  let '(wf, of) := save_piano_roll_fig 0%nat "x" "." false w in
  ot = of /\ heap wt 0%nat = heap wf 0%nat /\ files wt = files wf
  /\ stdout wt = stdout wf
  /\ last_figure wf
     = option_map (fun f => mkFigure (f_xlim f) (f_ylim f) (f_lines f)
                              (f_yticks f) (f_yticklabels f) None)
                  (last_figure wt).
Proof.
  cbv zeta. split; [discriminate|].
  apply show_legend_only_adds_legend. discriminate.
Defined.

Module Flatten2.

Lemma filter_twice {A} (f g : A -> bool) (l : list A) :
  filter f (filter g l) = filter (fun x => g x && f x) l.
Proof.
  induction l as [|x r IH]; simpl; [reflexivity|].
  destruct (g x); simpl; [destruct (f x); simpl; now rewrite IH|exact IH].
Qed.

Lemma to_piano_roll_filter (s : list element) :
  music21_stream_to_piano_roll s
  = flat_map element_tuples (filter is_note_or_chord s).
Proof.
  induction s as [|el r IH]; [reflexivity|].
  rewrite Flatten.to_piano_roll_cons, IH.
  destruct el; reflexivity.
Qed.

Lemma strongly_sorted_app {A} (R : A -> A -> Prop) (l1 l2 : list A) :
  StronglySorted R l1 -> StronglySorted R l2 ->
  (forall x y, In x l1 -> In y l2 -> R x y) ->
  StronglySorted R (l1 ++ l2).
Proof.
  induction l1 as [|x r IH]; intros S1 S2 H; simpl; [exact S2|].
  apply StronglySorted_inv in S1 as [S1 F1]. constructor.
  - apply IH; auto. intros a b Ha Hb. apply H; [now right|exact Hb].
  - apply Forall_forall. intros y Hy. apply in_app_or in Hy as [Hy|Hy].
    + now apply (proj1 (Forall_forall _ _) F1).
    + apply H; [now left|exact Hy].
Qed.

Lemma element_tuples_start (el : element) (e : event) :
  In e (element_tuples el) -> ev_start e = el_offset el.
Proof.
  destruct el; simpl; try tauto.
  - intros [<-|[]]. reflexivity.
  - intros He. apply in_map_iff in He as [p [<- _]]. reflexivity.
Qed.

End Flatten2.

(** X6: the flattener only looks at notes and chords: dropping every
    other element (rests, unpitched notes, markings) from the stream does
    not change its output. *)
Theorem flattener_ignores_non_notes (s : list element) :
  music21_stream_to_piano_roll s
  = music21_stream_to_piano_roll (filter is_note_or_chord s).
Proof.
  rewrite !Flatten2.to_piano_roll_filter, Flatten2.filter_twice.
  f_equal. apply filter_ext. intros el. now rewrite andb_diag.
Qed.

(** X7: the pitches of the output are, in order, the pitch of each note
    and the pitches of each chord of the stream; so the number of events
    is the number of notes plus the sizes of the chords. *)
Theorem flattener_pitches (s : list element) :
  map ev_pitch (music21_stream_to_piano_roll s) = flat_map el_pitches s
  /\ List.length (music21_stream_to_piano_roll s)
     = List.length (flat_map el_pitches s).
Proof.
  assert (H : map ev_pitch (music21_stream_to_piano_roll s)
              = flat_map el_pitches s).
  { induction s as [|el r IH]; [reflexivity|].
    rewrite Flatten.to_piano_roll_cons, map_app, IH. simpl. f_equal.
    destruct el; simpl; try reflexivity.
    rewrite map_map. apply map_id. }
  split; [exact H|]. rewrite <- H. symmetry. apply length_map.
Qed.

(** X8: every emitted event comes from a note or chord of the stream:
    its pitch is one of that element's pitches, its start is the
    element's offset and its end that offset plus the element's
    [quarterLength]. *)
Theorem flattener_event_origin (s : list element) (e : event) :
  In e (music21_stream_to_piano_roll s) ->
  exists el, In el s /\ is_note_or_chord el = true
             /\ In (ev_pitch e) (el_pitches el)
             /\ ev_start e = el_offset el
             /\ ev_end e = (el_offset el + el_ql el)%Q.
Proof.
  rewrite Flatten2.to_piano_roll_filter. intros He.
  apply in_flat_map in He as [el [Hel He]].
  apply filter_In in Hel as [Hel Hnc]. exists el.
  split; [exact Hel|]. split; [exact Hnc|].
  destruct el as [m off ql|ms off ql|off ql|]; simpl in He |- *; try tauto.
  - destruct He as [<-|[]]. repeat split. now left.
  - apply in_map_iff in He as [p [<- Hp]]. repeat split. exact Hp.
Qed.

Lemma flattener_event_origin_witness :
  In (64%Z, 1#2, ((1#2) + 2)%Q)
     (music21_stream_to_piano_roll [Note 60 0 1; NonNote; Chord [64; 67] (1#2) 2])
  /\ exists el, In el [Note 60 0 1; NonNote; Chord [64; 67] (1#2) 2]
       /\ is_note_or_chord el = true
       /\ In (ev_pitch (64%Z, 1#2, ((1#2) + 2)%Q)) (el_pitches el)
       /\ ev_start (64%Z, 1#2, ((1#2) + 2)%Q) = el_offset el
       /\ ev_end (64%Z, 1#2, ((1#2) + 2)%Q) = (el_offset el + el_ql el)%Q.
Proof.
  assert (H : In (64%Z, 1#2, ((1#2) + 2)%Q)
     (music21_stream_to_piano_roll [Note 60 0 1; NonNote; Chord [64; 67] (1#2) 2]))
    by (simpl; auto).
  split; [exact H|]. exact (flattener_event_origin _ _ H).
Defined.

(** X9: flattening two consecutive parts of a stream gives the
    concatenation of their piano rolls, in order. *)
Theorem flattener_app (s1 s2 : list element) :
  music21_stream_to_piano_roll (s1 ++ s2)
  = music21_stream_to_piano_roll s1 ++ music21_stream_to_piano_roll s2.
Proof.
  rewrite !Flatten2.to_piano_roll_filter, filter_app. apply flat_map_app.
Qed.

(** X10: when the notes and chords of the flattened stream come in
    nondecreasing offset order (as a flattened music21 stream keeps
    them), the emitted events are in nondecreasing start order. *)
Theorem flattener_starts_sorted (s : list element)
  (Hs : Sorted (fun a b => (el_offset a <= el_offset b)%Q)
               (filter is_note_or_chord s)) :
  Sorted (fun a b => (ev_start a <= ev_start b)%Q)
         (music21_stream_to_piano_roll s).
Proof.
  rewrite Flatten2.to_piano_roll_filter.
  apply StronglySorted_Sorted.
  apply Sorted_StronglySorted in Hs; [|intros x y z; apply Qle_trans].
  induction Hs as [|el r Hr IH F]; simpl; [constructor|].
  apply Flatten2.strongly_sorted_app; [| exact IH |].
  - assert (Hst : forall e, In e (element_tuples el) -> ev_start e = el_offset el)
      by apply Flatten2.element_tuples_start.
    clear -Hst. induction (element_tuples el) as [|x l IHl]; constructor.
    + apply IHl. intros e He. apply Hst. now right.
    + apply Forall_forall. intros y Hy.
      rewrite (Hst x (or_introl eq_refl)), (Hst y (or_intror Hy)).
      apply Qle_refl.
  - intros x y Hx Hy. apply in_flat_map in Hy as [el' [Hel' Hy]].
    rewrite (Flatten2.element_tuples_start _ _ Hx),
            (Flatten2.element_tuples_start _ _ Hy).
    rewrite Forall_forall in F. now apply F.
Qed.

Lemma flattener_starts_sorted_witness :
  Sorted (fun a b => (el_offset a <= el_offset b)%Q)
         (filter is_note_or_chord [Note 60 0 1; NonNote; Chord [64; 67] 1 2; Note 62 (3#2) 1])
  /\ Sorted (fun a b => (ev_start a <= ev_start b)%Q)
       (music21_stream_to_piano_roll
          [Note 60 0 1; NonNote; Chord [64; 67] 1 2; Note 62 (3#2) 1]).
Proof.
  assert (H : Sorted (fun a b => (el_offset a <= el_offset b)%Q)
         (filter is_note_or_chord [Note 60 0 1; NonNote; Chord [64; 67] 1 2; Note 62 (3#2) 1])).
  { simpl. repeat constructor; simpl; apply Qle_bool_imp_le; reflexivity. }
  split; [exact H|]. exact (flattener_starts_sorted _ H).
Defined.

(** X11: running the script on a score that has no note or chord (only
    rests, markings or unpitched notes) crashes with [ValueError]: the
    flattener yields an empty roll and [min([])] raises; no file is
    written and nothing is printed. *)
Theorem main_no_notes_crashes (r : loc) (music_sheet_path : string)
  (flat_stream : list element) (w : world)
  (Hnone : forallb (fun el => negb (is_note_or_chord el)) flat_stream = true) :
  let '(w', o) := main_script r music_sheet_path flat_stream w in
  o = Raised Py.ValueError /\ files w' = files w /\ stdout w' = stdout w.
Proof.
  unfold main_script. rewrite Flatten.to_piano_roll_silent by exact Hnone.
  rewrite Run2.save_empty; [simpl; auto|].
  simpl. unfold heap_set. now rewrite Nat.eqb_refl.
Qed.

Lemma main_no_notes_crashes_witness :
  let w := mkWorld (fun _ => []) ["./piano_rolls"]%string [] [] None in
  forallb (fun el => negb (is_note_or_chord el))
    [NonNote; OtherNotRest 0 1; NonNote] = true /\
  let '(w', o) := main_script 0%nat "rests.xml" [NonNote; OtherNotRest 0 1; NonNote] w in
  o = Raised Py.ValueError /\ files w' = files w /\ stdout w' = stdout w.
Proof.
  cbv zeta. split; [reflexivity|].
  apply main_no_notes_crashes. reflexivity.
Defined.
